(** * Chat-App: session, room and message engine of [src/chat-app/server.js]

    A shallow embedding of the socket handlers of the chat server, of the
    Redis commands they issue, and of the part of the browser client
    ([src/public/js/main.js]) that validates a user name and renders
    history.  Handlers are written in a small monad that threads the
    server's state and has the three ways a JavaScript function body can
    finish: normally, by [return], or by a thrown exception.  A Redis
    command may be rejected, which is how the [catch] branches are
    reached; which commands are rejected is part of the state
    ([faults]). *)

From stdpp Require Import gmap strings list fin_maps.
From Stdlib Require Import ZArith Ascii String.

Open Scope string_scope.
Open Scope list_scope.

(** ** JavaScript strings

    A string is a sequence of code units; the model covers code units
    below 256, one [ascii] each. *)

Module JS.

(** [String.prototype.trim] removes WhiteSpace and LineTerminator code
    points; below 256 these are TAB, LF, VT, FF, CR, SPACE and NBSP. *)
Definition isWhiteSpace (c : ascii) : bool :=
  let n := nat_of_ascii c in
  ((9 <=? n)%nat && (n <=? 13)%nat) || (n =? 32)%nat || (n =? 160)%nat.

Fixpoint trimStart (s : string) : string :=
  match s with
  | EmptyString => EmptyString
  | String c rest => if isWhiteSpace c then trimStart rest else s
  end.

Definition trimEnd (s : string) : string :=
  String.rev (trimStart (String.rev s)).

Definition trim (s : string) : string := trimEnd (trimStart s).

(** Truthiness of a string value: only the empty string is falsy. *)
Definition truthy (s : string) : bool :=
  match s with EmptyString => false | _ => true end.

(** [x || d] where [x] is a string or [undefined]. *)
Definition or_else (x : option string) (d : string) : string :=
  match x with
  | Some s => if truthy s then s else d
  | None => d
  end.

(** The character class [[a-zA-Z0-9_-]]. *)
Definition idChar (c : ascii) : bool :=
  let n := nat_of_ascii c in
  ((97 <=? n)%nat && (n <=? 122)%nat) || ((65 <=? n)%nat && (n <=? 90)%nat)
  || ((48 <=? n)%nat && (n <=? 57)%nat) || (n =? 95)%nat || (n =? 45)%nat.

Fixpoint allChars (p : ascii → bool) (s : string) : bool :=
  match s with
  | EmptyString => true
  | String c rest => p c && allChars p rest
  end.

(** [/^[a-zA-Z0-9_-]{lo,hi}$/.test(s)] *)
Definition testIdPattern (lo hi : nat) (s : string) : bool :=
  (lo <=? String.length s)%nat && (String.length s <=? hi)%nat && allChars idChar s.

(** [/^[a-zA-Z0-9_-]+$/.test(s)] *)
Definition testIdPlus (s : string) : bool :=
  (1 <=? String.length s)%nat && allChars idChar s.

End JS.

(** ** The Redis store

    Keys are named by the template that builds them in the source
    ([MESSAGE_KEYS], [GROUP_KEYS]); distinct constructors or distinct
    room ids give distinct key texts ([key_name_inj]). *)

Inductive key :=
| CHAT_MESSAGES                      (* 'chat_messages' *)
| GROUPS_SET                         (* 'groups' *)
| meta (groupId : string)            (* `group:${groupId}:meta` *)
| members (groupId : string)         (* `group:${groupId}:members` *)
| messages (groupId : string).       (* `group:${groupId}:messages` *)

(** The text of the key, as the source builds it. *)
Definition key_name (k : key) : string :=
  match k with
  | CHAT_MESSAGES => "chat_messages"
  | GROUPS_SET => "groups"
  | meta groupId => "group:" +:+ groupId +:+ ":meta"
  | members groupId => "group:" +:+ groupId +:+ ":members"
  | messages groupId => "group:" +:+ groupId +:+ ":messages"
  end.

#[global] Instance key_eq_dec : EqDecision key.
Proof. solve_decision. Defined.

Definition key_code (k : key) : nat * string :=
  match k with
  | CHAT_MESSAGES => (0, "")
  | GROUPS_SET => (1, "")
  | meta g => (2, g)
  | members g => (3, g)
  | messages g => (4, g)
  end.

Definition key_decode (p : nat * string) : option key :=
  match p with
  | (0, _) => Some CHAT_MESSAGES
  | (1, _) => Some GROUPS_SET
  | (2, g) => Some (meta g)
  | (3, g) => Some (members g)
  | (4, g) => Some (messages g)
  | _ => None
  end.

#[global] Instance key_countable : Countable key.
Proof. apply (inj_countable key_code key_decode). by intros []. Defined.

(** The object that [handleMessage] and [handleGroupMessage] build and
    pass to [JSON.stringify].  A list entry of the store is kept as this
    record: [JSON.parse (JSON.stringify m)] gives back the same fields. *)
Record messageData := MessageData {
  md_groupId : option string;        (* absent in global messages *)
  md_username : string;
  md_message : string;
  md_timestamp : string
}.

Record redis := Redis {
  sets : gmap key (gset string);
  hashes : gmap key (gmap string string);
  lists : gmap key (list messageData)
}.

Module Redis.

Definition empty : redis := Redis ∅ ∅ ∅.

Definition smembers (k : key) (r : redis) : gset string :=
  default ∅ (sets r !! k).

Definition sismember (k : key) (m : string) (r : redis) : bool :=
  bool_decide (m ∈ smembers k r).

Definition sadd (k : key) (m : string) (r : redis) : redis :=
  Redis (<[k := {[m]} ∪ smembers k r]> (sets r)) (hashes r) (lists r).

(** A set that becomes empty is removed together with its key. *)
Definition srem (k : key) (m : string) (r : redis) : redis :=
  let s := smembers k r ∖ {[m]} in
  Redis (if decide (s = ∅) then delete k (sets r) else <[k := s]> (sets r))
        (hashes r) (lists r).

(** [HSET key field value ...]: given fields overwrite stored ones. *)
Definition hset (k : key) (fields : gmap string string) (r : redis) : redis :=
  Redis (sets r) (<[k := fields ∪ default ∅ (hashes r !! k)]> (hashes r)) (lists r).

(** [HGETALL]; the client returns an object without fields for a missing key. *)
Definition hgetall (k : key) (r : redis) : gmap string string :=
  default ∅ (hashes r !! k).

Definition llist (k : key) (r : redis) : list messageData :=
  default [] (lists r !! k).

(** [LPUSH] inserts at the head of the list. *)
Definition lpush (k : key) (v : messageData) (r : redis) : redis :=
  Redis (sets r) (hashes r) (<[k := v :: llist k r]> (lists r)).

(** [LRANGE key start stop] on the list contents: negative indices count
    from the tail, out-of-range indices are clamped, both ends inclusive. *)
Definition lrange_list {A} (l : list A) (start stop : Z) : list A :=
  let len := Z.of_nat (List.length l) in
  let start := if (start <? 0)%Z then Z.max 0 (len + start) else start in
  let stop := if (stop <? 0)%Z then (len + stop)%Z else stop in
  if (stop <? start)%Z || (len <=? start)%Z then []
  else
    let stop := Z.min stop (len - 1) in
    take (Z.to_nat (stop - start + 1)) (drop (Z.to_nat start) l).

Definition lrange (k : key) (start stop : Z) (r : redis) : list messageData :=
  lrange_list (llist k r) start stop.

(** [DEL key] removes the key whatever the type of its value. *)
Definition del (k : key) (r : redis) : redis :=
  Redis (delete k (sets r)) (delete k (hashes r)) (delete k (lists r)).

End Redis.

(** ** Events sent to clients *)

Inductive event :=
| username_taken (message : string)
| username_accepted (username : string)
| user_joined (username : string)
| user_left (username : string)
| error (message : string)
| group_created (groupId name owner createdAt : string)
| group_joined (groupId name : string) (msgs : list messageData)
| group_message (m : messageData)
| group_history_cleared (groupId clearedBy timestamp : string)
| group_deleted (groupId deletedBy : string)
| left_group (groupId status : string)
| message (m : messageData)
| historical_messages (msgs : list messageData)
| paginated_messages (msgs : list messageData) (hasMore : bool) (offset : Z)
| global_history_cleared (clearedBy timestamp : string).

(** One [emit]: the event and the connections it is delivered to, as
    computed from the live sockets and rooms when it is dispatched. *)
Record delivery := Delivery { recipients : gset nat; ev : event }.

(** ** Server state *)

(** A connected socket: the [username] property the handlers set on it
    ([None] is [undefined]) and the socket.io rooms it has joined through
    [socket.join].  Socket ids are numbers here, so the private room
    socket.io names after each socket's id is not among them. *)
Record socket := Socket { username : option string; rooms : gset string }.

Record world := World {
  activeUsernames : gset string;     (* const activeUsernames = new Set() *)
  sockets : gmap nat socket;         (* io.sockets.sockets, by socket id *)
  store : redis;                     (* what valkeyClient talks to *)
  faults : list bool;                (* which of the next commands are rejected *)
  clock : string;                    (* new Date().toISOString() *)
  outbox : list delivery             (* everything emitted so far, oldest first *)
}.

Definition set_activeUsernames (f : gset string → gset string) (w : world) : world :=
  World (f (activeUsernames w)) (sockets w) (store w) (faults w) (clock w) (outbox w).
Definition set_sockets (f : gmap nat socket → gmap nat socket) (w : world) : world :=
  World (activeUsernames w) (f (sockets w)) (store w) (faults w) (clock w) (outbox w).
Definition set_store (f : redis → redis) (w : world) : world :=
  World (activeUsernames w) (sockets w) (f (store w)) (faults w) (clock w) (outbox w).
Definition set_faults (fs : list bool) (w : world) : world :=
  World (activeUsernames w) (sockets w) (store w) fs (clock w) (outbox w).
Definition push_outbox (d : delivery) (w : world) : world :=
  World (activeUsernames w) (sockets w) (store w) (faults w) (clock w) (outbox w ++ [d]).

(** ** The handler monad *)

(** How a statement finishes: normally with a value, by [return], or by
    a thrown exception. *)
Inductive completion (A : Type) :=
| Normal (a : A)
| Return
| Throw.
Arguments Normal {A} a.
Arguments Return {A}.
Arguments Throw {A}.

Definition M (A : Type) : Type := world → completion A * world.

#[global] Instance M_ret : MRet M := λ A a w, (Normal a, w).

#[global] Instance M_bind : MBind M := λ A B f m w,
  match m w with
  | (Normal a, w') => f a w'
  | (Return, w') => (Return, w')
  | (Throw, w') => (Throw, w')
  end.

Definition return_ {A} : M A := λ w, (Return, w).
Definition throw {A} : M A := λ w, (Throw, w).

(** [try { body } catch (error) { handler }]: state changes made before
    the exception stay. *)
Definition try_catch {A} (body handler : M A) : M A := λ w,
  match body w with
  | (Throw, w') => handler w'
  | r => r
  end.

(** [if (c) { m }] *)
Definition when (c : bool) (m : M unit) : M unit :=
  if c then m else mret ().

Definition gets {A} (f : world → A) : M A := λ w, (Normal (f w), w).
Definition modify (f : world → world) : M unit := λ w, (Normal (), f w).

(** Calling a handler: the state it leaves behind.  An exception that
    escapes an [async] handler is a rejected promise nobody awaits, and
    one that escapes a synchronous listener is caught by nobody either:
    nothing more is emitted for that request.  [server.js] installs no
    handler for them; where Node ends the process on one, no later event
    is handled, so the runs below reach every state the server reaches. *)
Definition run (m : M unit) (w : world) : world := (m w).2.

(** ** socket.io primitives *)

Definition emit_to (to : gset nat) (e : event) : M unit :=
  modify (push_outbox (Delivery to e)).

(** [socket.emit(...)] *)
Definition socket_emit (sid : nat) (e : event) : M unit :=
  emit_to {[sid]} e.

(** [socket.broadcast.emit(...)]: every connected socket but the sender. *)
Definition socket_broadcast_emit (sid : nat) (e : event) : M unit :=
  w ← gets id; emit_to (dom (sockets w) ∖ {[sid]}) e.

(** [io.emit(...)]: every connected socket. *)
Definition io_emit (e : event) : M unit :=
  w ← gets id; emit_to (dom (sockets w)) e.

Definition in_room (room : string) (w : world) : gset nat :=
  dom (filter (λ p, room ∈ rooms p.2) (sockets w)).

(** [io.to(room).emit(...)]: the sockets that have joined [room]. *)
Definition io_to_emit (room : string) (e : event) : M unit :=
  w ← gets id; emit_to (in_room room w) e.

Definition get_username (sid : nat) : M (option string) :=
  gets (λ w, s ← sockets w !! sid; username s).

(** [!socket.username] *)
Definition not_username (u : option string) : bool :=
  match u with Some s => negb (JS.truthy s) | None => true end.

(** [socket.username = name] *)
Definition set_username (sid : nat) (name : string) : M unit :=
  modify (set_sockets (alter (λ s, Socket (Some name) (rooms s)) sid)).

(** [socket.join(room)] and [socket.leave(room)] *)
Definition socket_join (sid : nat) (room : string) : M unit :=
  modify (set_sockets (alter (λ s, Socket (username s) ({[room]} ∪ rooms s)) sid)).
Definition socket_leave (sid : nat) (room : string) : M unit :=
  modify (set_sockets (alter (λ s, Socket (username s) (rooms s ∖ {[room]})) sid)).

(** ** The Redis client

    Every command consumes one entry of [faults]; [true] makes the
    command reject (connection lost, retries exhausted) and leaves the
    store as it was. An empty [faults] means every command succeeds. *)

Module valkeyClient.

Definition command {A} (f : redis → A * redis) : M A := λ w,
  match faults w with
  | true :: fs => (Throw, set_faults fs w)
  | false :: fs => (Normal (f (store w)).1, set_store (λ _, (f (store w)).2) (set_faults fs w))
  | [] => (Normal (f (store w)).1, set_store (λ _, (f (store w)).2) w)
  end.

Definition query {A} (f : redis → A) : M A := command (λ r, (f r, r)).
Definition update (f : redis → redis) : M unit := command (λ r, ((), f r)).

Definition sismember (k : key) (m : string) : M bool := query (Redis.sismember k m).
Definition sadd (k : key) (m : string) : M unit := update (Redis.sadd k m).
Definition srem (k : key) (m : string) : M unit := update (Redis.srem k m).
Definition hset (k : key) (fields : gmap string string) : M unit := update (Redis.hset k fields).
Definition hgetall (k : key) : M (gmap string string) := query (Redis.hgetall k).
Definition lpush (k : key) (v : messageData) : M unit := update (Redis.lpush k v).
Definition lrange (k : key) (start stop : Z) : M (list messageData) := query (Redis.lrange k start stop).
Definition del (k : key) : M unit := update (Redis.del k).

End valkeyClient.

(** [handleRedisOperation(operation, operationName)]: logs and rethrows. *)
Definition handleRedisOperation {A} (operation : M A) : M A :=
  try_catch operation throw.

(** ** Socket event handlers of [server.js] *)

Definition handleUsernameSelection (sid : nat) (username : string) : M unit :=
  taken ← gets (λ w, bool_decide (username ∈ activeUsernames w));
  when taken (
    socket_emit sid (username_taken "Username is already taken. Please choose another.");;
    return_);;
  modify (set_activeUsernames (λ s, {[username]} ∪ s));;
  set_username sid username;;
  socket_emit sid (username_accepted username);;
  socket_broadcast_emit sid (user_joined username).

Definition isValidGroupId (groupId : string) : bool :=
  if negb (JS.truthy groupId) then false
  else
    let trimmed := JS.trim groupId in
    if negb (JS.truthy trimmed) then false
    else JS.testIdPattern 2 50 trimmed.

Definition handleCreateGroup (sid : nat) (data_groupId data_name : option string) : M unit :=
  u ← get_username sid;
  when (not_username u) (
    socket_emit sid (error "Please select a username before creating groups.");;
    return_);;
  let socket_username := default "" u in
  let groupId := JS.trim (JS.or_else data_groupId "") in
  let groupName := JS.trim (JS.or_else data_name groupId) in
  when (negb (isValidGroupId groupId)) (
    socket_emit sid (error "Invalid group ID. Use 2-50 chars: letters, numbers, _ or -.");;
    return_);;
  try_catch (
    exists_ ← handleRedisOperation (valkeyClient.sismember GROUPS_SET groupId);
    when exists_ (
      socket_emit sid (error "Group already exists.");;
      return_);;
    handleRedisOperation (valkeyClient.sadd GROUPS_SET groupId);;
    createdAt ← gets clock;
    handleRedisOperation (valkeyClient.hset (meta groupId)
      {[ "name" := groupName; "owner" := socket_username; "createdAt" := createdAt ]});;
    handleRedisOperation (valkeyClient.sadd (members groupId) socket_username);;
    socket_join sid groupId;;
    socket_emit sid (group_created groupId groupName socket_username createdAt))
  (socket_emit sid (error "Failed to create group. Please try again.")).

Definition handleJoinGroup (sid : nat) (data_groupId : option string) : M unit :=
  u ← get_username sid;
  when (not_username u) (
    socket_emit sid (error "Please select a username before joining groups.");;
    return_);;
  let socket_username := default "" u in
  let groupId := JS.trim (JS.or_else data_groupId "") in
  when (negb (isValidGroupId groupId)) (
    socket_emit sid (error "Invalid group ID.");;
    return_);;
  try_catch (
    exists_ ← handleRedisOperation (valkeyClient.sismember GROUPS_SET groupId);
    when (negb exists_) (
      socket_emit sid (error "Group does not exist.");;
      return_);;
    handleRedisOperation (valkeyClient.sadd (members groupId) socket_username);;
    socket_join sid groupId;;
    parsedMessages ← handleRedisOperation (valkeyClient.lrange (messages groupId) 0 (-1));
    meta_ ← handleRedisOperation (valkeyClient.hgetall (meta groupId));
    socket_emit sid (group_joined groupId (JS.or_else (meta_ !! "name") groupId) parsedMessages))
  (socket_emit sid (error "Failed to join group. Please try again.")).

Definition handleGroupMessage (sid : nat) (data_groupId data_message : option string)
    (data_timestamp : string) : M unit :=
  u ← get_username sid;
  when (not_username u) (
    socket_emit sid (error "Please select a username before sending messages.");;
    return_);;
  let socket_username := default "" u in
  let groupId := JS.trim (JS.or_else data_groupId "") in
  let messageText := JS.trim (JS.or_else data_message "") in
  let timestamp := data_timestamp in
  when (negb (isValidGroupId groupId) || negb (JS.truthy messageText)) return_;;
  try_catch (
    isMember ← handleRedisOperation (valkeyClient.sismember (members groupId) socket_username);
    when (negb isMember) (
      socket_emit sid (error "You are not a member of this group.");;
      return_);;
    let messageData := MessageData (Some groupId) socket_username messageText timestamp in
    handleRedisOperation (valkeyClient.lpush (messages groupId) messageData);;
    io_to_emit groupId (group_message messageData))
  (socket_emit sid (error "Failed to send message. Please try again.")).

Definition handleClearGroupHistory (sid : nat) (data_groupId : option string) : M unit :=
  u ← get_username sid;
  when (not_username u) (
    socket_emit sid (error "Please select a username before clearing group history.");;
    return_);;
  let socket_username := default "" u in
  let groupId := JS.trim (JS.or_else data_groupId "") in
  when (negb (isValidGroupId groupId)) return_;;
  try_catch (
    isMember ← handleRedisOperation (valkeyClient.sismember (members groupId) socket_username);
    when (negb isMember) (
      socket_emit sid (error "You are not a member of this group.");;
      return_);;
    handleRedisOperation (valkeyClient.del (messages groupId));;
    now ← gets clock;
    io_to_emit groupId (group_history_cleared groupId socket_username now))
  (socket_emit sid (error "Failed to clear group history. Please try again.")).

Definition handleDeleteGroup (sid : nat) (data_groupId : option string) : M unit :=
  u ← get_username sid;
  when (not_username u) (
    socket_emit sid (error "Please select a username before deleting groups.");;
    return_);;
  let socket_username := default "" u in
  let groupId := JS.trim (JS.or_else data_groupId "") in
  when (negb (isValidGroupId groupId)) return_;;
  try_catch (
    exists_ ← handleRedisOperation (valkeyClient.sismember GROUPS_SET groupId);
    when (negb exists_) (
      socket_emit sid (error "Group does not exist.");;
      return_);;
    meta_ ← handleRedisOperation (valkeyClient.hgetall (meta groupId));
    (* [!meta] is false: [hgetall] always resolves to an object *)
    when (negb (bool_decide (meta_ !! "owner" = Some socket_username))) (
      socket_emit sid (error "Only the group owner can delete this group.");;
      return_);;
    io_to_emit groupId (group_deleted groupId socket_username);;
    handleRedisOperation (valkeyClient.del (messages groupId));;
    handleRedisOperation (valkeyClient.del (members groupId));;
    handleRedisOperation (valkeyClient.del (meta groupId));;
    handleRedisOperation (valkeyClient.srem GROUPS_SET groupId);;
    (* every socket of the room leaves it *)
    modify (set_sockets (fmap (λ s, Socket (username s) (rooms s ∖ {[groupId]})))))
  (socket_emit sid (error "Failed to delete group. Please try again.")).

Definition handleLeaveGroup (sid : nat) (data_groupId : option string) : M unit :=
  u ← get_username sid;
  when (not_username u) (
    socket_emit sid (error "Please select a username before leaving groups.");;
    return_);;
  let socket_username := default "" u in
  let groupId := JS.trim (JS.or_else data_groupId "") in
  when (negb (isValidGroupId groupId)) return_;;
  try_catch (
    isMember ← handleRedisOperation (valkeyClient.sismember (members groupId) socket_username);
    when (negb isMember) (
      socket_emit sid (left_group groupId "not_member");;
      return_);;
    handleRedisOperation (valkeyClient.srem (members groupId) socket_username);;
    socket_leave sid groupId;;
    socket_emit sid (left_group groupId "ok"))
  (socket_emit sid (error "Failed to leave group. Please try again.")).

Definition handleMessage (sid : nat) (data_message data_timestamp : string) : M unit :=
  u ← get_username sid;
  when (not_username u) (
    socket_emit sid (error "Please select a username before sending messages.");;
    return_);;
  let messageData := MessageData None (default "" u) data_message data_timestamp in
  try_catch (
    handleRedisOperation (valkeyClient.lpush CHAT_MESSAGES messageData);;
    io_emit (message messageData))
  (socket_emit sid (error "Failed to send message. Please try again.")).

Definition handleDisconnection (sid : nat) : M unit :=
  u ← get_username sid;
  if negb (not_username u) then
    modify (set_activeUsernames (λ s, s ∖ {[default "" u]}));;
    socket_broadcast_emit sid (user_left (default "" u))
  else mret ().

Definition loadHistoricalMessages (sid : nat) : M unit :=
  try_catch (
    parsedMessages ← handleRedisOperation (valkeyClient.lrange CHAT_MESSAGES 0 (-1));
    socket_emit sid (historical_messages parsedMessages))
  (socket_emit sid (error "Failed to load chat history.")).

(** [loadPaginatedMessages(socket, offset = 0, limit = 50)]; a parameter
    that is [undefined] takes its default. *)
Definition loadPaginatedMessages (sid : nat) (data_offset data_limit : option Z) : M unit :=
  let offset := default 0%Z data_offset in
  let limit := default 50%Z data_limit in
  try_catch (
    parsedMessages ← handleRedisOperation
      (valkeyClient.lrange CHAT_MESSAGES offset (offset + limit - 1));
    socket_emit sid (paginated_messages parsedMessages
      (bool_decide (Z.of_nat (List.length parsedMessages) = limit))
      (offset + Z.of_nat (List.length parsedMessages))))
  (socket_emit sid (error "Failed to load more messages.")).

Definition clearChatHistory (sid : nat) : M unit :=
  u ← get_username sid;
  when (not_username u) (
    socket_emit sid (error "Please select a username before clearing chat history.");;
    return_);;
  try_catch (
    handleRedisOperation (valkeyClient.del CHAT_MESSAGES);;
    now ← gets clock;
    io_emit (global_history_cleared (default "" u) now))
  (socket_emit sid (error "Failed to clear chat history. Please try again.")).

(** ** The connection handler and its dispatch table *)

(** *** A listener called without a payload

    [handleUsernameSelection], [handleMessage] and the listener of
    [load_more_messages] read a property of [data] by destructuring or
    with a plain [data.x]; when the event arrives with no argument,
    [data] is [undefined] and the read throws a TypeError.  The group
    handlers read [data?.x]: for them a missing payload is a payload
    whose fields are all missing. *)

(** [handleUsernameSelection(socket, undefined)]:
    [const { username } = data] throws on the first line. *)
Definition handleUsernameSelection_undefined (sid : nat) : M unit :=
  throw.

(** [handleMessage(socket, undefined)]: the guard on [socket.username]
    runs, then building [messageData] reads [data.message], before the
    [try]. *)
Definition handleMessage_undefined (sid : nat) : M unit :=
  u ← get_username sid;
  when (not_username u) (
    socket_emit sid (error "Please select a username before sending messages.");;
    return_);;
  throw.

(** [(data) => loadPaginatedMessages(socket, data.offset, data.limit)]
    on [undefined]: the arguments are evaluated first, and [data.offset]
    throws before [loadPaginatedMessages] is entered. *)
Definition load_more_messages_undefined (sid : nat) : M unit :=
  throw.

(** What a connected client may send ([socket.on(name, ...)]).  A field
    of a payload may be missing ([None]); the last three are the events
    above sent without a payload. *)
Inductive request :=
| on_select_username (username : string)
| on_message (message timestamp : string)
| on_load_more_messages (offset limit : option Z)
| on_clear_history
| on_create_group (groupId name : option string)
| on_join_group (groupId : option string)
| on_leave_group (groupId : option string)
| on_group_message (groupId message : option string) (timestamp : string)
| on_clear_group_history (groupId : option string)
| on_delete_group (groupId : option string)
| on_request_global_history
| on_disconnect
| on_select_username_undefined
| on_message_undefined
| on_load_more_messages_undefined.

(** [io.on('connection', ...)]: a new socket, no user name, no rooms. *)
Definition connection (sid : nat) : world → world :=
  run (modify (set_sockets (<[sid := Socket None ∅]>));;
       loadHistoricalMessages sid).

Definition handle (sid : nat) (req : request) : world → world :=
  match req with
  | on_select_username u => run (handleUsernameSelection sid u)
  | on_message m t => run (handleMessage sid m t)
  | on_load_more_messages o l => run (loadPaginatedMessages sid o l)
  | on_clear_history => run (clearChatHistory sid)
  | on_create_group g n => run (handleCreateGroup sid g n)
  | on_join_group g => run (handleJoinGroup sid g)
  | on_leave_group g => run (handleLeaveGroup sid g)
  | on_group_message g m t => run (handleGroupMessage sid g m t)
  | on_clear_group_history g => run (handleClearGroupHistory sid g)
  | on_delete_group g => run (handleDeleteGroup sid g)
  | on_request_global_history => run (loadHistoricalMessages sid)
  | on_disconnect =>
      (* the socket is gone from [io.sockets] once it has disconnected *)
      run (handleDisconnection sid;; modify (set_sockets (delete sid)))
  | on_select_username_undefined => run (handleUsernameSelection_undefined sid)
  | on_message_undefined => run (handleMessage_undefined sid)
  | on_load_more_messages_undefined => run (load_more_messages_undefined sid)
  end.

(** A server that has just started on the store [r]. *)
Definition boot (r : redis) (fs : list bool) (now : string) : world :=
  World ∅ ∅ r fs now [].

Inductive label :=
| Connect (sid : nat)
| Request (sid : nat) (req : request).

(** One event of the server's life.  A handler runs to completion
    before the next event is taken: this is what happens for the
    synchronous handlers ([handleUsernameSelection],
    [handleDisconnection]); for the [async] ones it leaves out the
    interleavings that Node allows at each [await]. *)
Inductive step : world → label → world → Prop :=
| step_connect w sid :
    sockets w !! sid = None →
    step w (Connect sid) (connection sid w)
| step_request w sid req :
    is_Some (sockets w !! sid) →
    step w (Request sid req) (handle sid req w).

Inductive reachable : world → Prop :=
| reachable_boot r fs now : reachable (boot r fs now)
| reachable_step w l w' : reachable w → step w l w' → reachable w'.

(** ** The browser client ([main.js]) *)

Module Client.

(** [validateUsername(username)]: an error message, or [None] for [null]. *)
Definition validateUsername (username : string) : option string :=
  let trimmed := JS.trim username in
  if negb (JS.truthy trimmed) then Some "Username cannot be empty"
  else if (String.length trimmed <? 2)%nat then
    Some "Username must be at least 2 characters long"
  else if (20 <? String.length trimmed)%nat then
    Some "Username must be less than 20 characters"
  else if negb (JS.testIdPlus trimmed) then
    Some "Username can only contain letters, numbers, underscores, and hyphens"
  else None.

(** What submitting the user-name form does. *)
Inductive submitted :=
| showUsernameError (message : string)
| emit_select_username (username : string).

Definition handleUsernameSubmit (input : string) : submitted :=
  match validateUsername input with
  | Some problem => showUsernameError problem
  | None => emit_select_username (JS.trim input)
  end.

(** The chat pane, top to bottom. *)
Definition addMessageToChat (m : messageData) (prepend : bool)
    (chatMessages : list messageData) : list messageData :=
  if prepend then m :: chatMessages else chatMessages ++ [m].

(** [socket.on('historical_messages', ...)]: the pane is emptied, then
    every message is added at the bottom in the order received. *)
Definition on_historical_messages (msgs : list messageData) : list messageData :=
  foldl (λ pane m, addMessageToChat m false pane) [] msgs.

(** [handleLoadMoreMessages]: every message is added at the top. *)
Definition handleLoadMoreMessages (msgs : list messageData)
    (chatMessages : list messageData) : list messageData :=
  foldl (λ pane m, addMessageToChat m true pane) chatMessages msgs.

(** [socket.on('message', ...)] in the lobby: added at the bottom. *)
Definition on_message (m : messageData) (chatMessages : list messageData) : list messageData :=
  addMessageToChat m false chatMessages.

End Client.

(** ** Notions used in the statements *)

(** Every registered room id passed [isValidGroupId] when it was added. *)
Definition wf_store (r : redis) : Prop :=
  ∀ g, g ∈ Redis.smembers GROUPS_SET r → isValidGroupId g = true.

(** The deliveries made between [w] and a later state [w']. *)
Definition emitted (w w' : world) : list delivery :=
  drop (List.length (outbox w)) (outbox w').

(** How many of them reached the socket [sid]. *)
Definition received (sid : nat) (w w' : world) : nat :=
  List.length (filter (λ d, sid ∈ recipients d) (emitted w w')).

(** The user name a live socket carries. *)
Definition username_of (sid : nat) (w : world) : option string :=
  s ← sockets w !! sid; username s.

(** [sid] holds the identity [name]. *)
Definition holds (sid : nat) (name : string) (w : world) : Prop :=
  username_of sid w = Some name.

(** A user name the client's form refuses. *)
Definition lexically_invalid (s : string) : Prop :=
  JS.trim s = ""
  ∨ (String.length (JS.trim s) < 2)%nat
  ∨ (20 < String.length (JS.trim s))%nat
  ∨ JS.allChars JS.idChar (JS.trim s) = false.

(** The room a request names: [(data?.groupId || '').trim()]. *)
Definition room_of (data_groupId : option string) : string :=
  JS.trim (JS.or_else data_groupId "").

(** Paging through the lobby log the way a client does: ask for a page,
    then for the next one at the returned offset while [hasMore] is set.
    Gives the concatenated pages and the [hasMore] of the last page. *)
Fixpoint paginate (fuel : nat) (sid : nat) (offset limit : Z) (w : world)
    : option (list messageData * bool) :=
  match fuel with
  | O => None
  | S fuel' =>
      let w' := handle sid (on_load_more_messages (Some offset) (Some limit)) w in
      match ev <$> last (outbox w') with
      | Some (paginated_messages msgs hasMore offset') =>
          if hasMore then
            match paginate fuel' sid offset' limit w' with
            | Some (rest, final) => Some (msgs ++ rest, final)
            | None => None
            end
          else Some (msgs, hasMore)
      | _ => None
      end
  end.

(** One of the next [n] store commands is rejected. *)
Definition rejected_within (n : nat) (fs : list bool) : bool :=
  existsb id (take n fs).


(** The one request that is answered twice: the deletion of a
    registered room by its owner, from a socket that has joined the
    room's channel, when the two reads succeed and one of the four
    removal commands is rejected.  The [group_deleted] broadcast has
    gone out by then, and the failure event follows it. *)
Definition two_replies (sid : nat) (req : request) (w : world) : bool :=
  let me := username_of sid w in
  match req with
  | on_delete_group g =>
      negb (not_username me) && isValidGroupId (room_of g)
      && Redis.sismember GROUPS_SET (room_of g) (store w)
      && bool_decide (Redis.hgetall (meta (room_of g)) (store w) !! "owner" = me)
      && bool_decide (sid ∈ in_room (room_of g) w)
      && negb (rejected_within 2 (faults w)) && rejected_within 6 (faults w)
  | _ => false
  end.

(** ** Notions used in the proofs *)

(** Every run of [m] relates the state before to the state after. *)
Definition keeps {A} (R : relation world) (m : M A) : Prop :=
  ∀ w, R w (m w).2.

(** Same claimed names, same name on every socket, same live sockets. *)
Definition same_sessions (w w' : world) : Prop :=
  activeUsernames w' = activeUsernames w
  ∧ (∀ sid, username_of sid w' = username_of sid w)
  ∧ dom (sockets w') = dom (sockets w).

(** A well-formed registry stays well-formed. *)
Definition wf_kept (w w' : world) : Prop :=
  wf_store (store w) → wf_store (store w').

(** Every identity a live socket carries is in the set of claimed names,
    and no two live sockets carry the same identity. *)
Definition sessions_consistent (w : world) : Prop :=
  (∀ sid name, holds sid name w → name ∈ activeUsernames w)
  ∧ (∀ a b name, holds a name w → holds b name w → a = b).

(** ** Scenarios *)

Module Scenario.

Definition start : world := boot Redis.empty [] "2024-05-01T10:00:00.000Z".

(** Socket 1 connects and becomes alice. *)
Definition alice_in : world :=
  handle 1 (on_select_username "alice") (connection 1 start).

(** alice posts three lobby messages. *)
Definition lobby : world :=
  handle 1 (on_message "third" "10:03")
    (handle 1 (on_message "second" "10:02")
      (handle 1 (on_message "first" "10:01") alice_in)).

(** alice creates the room team1; socket 2 connects and becomes bob. *)
Definition team1 : world :=
  handle 2 (on_select_username "bob")
    (connection 2 (handle 1 (on_create_group (Some "team1") (Some "Team One")) alice_in)).

(** alice then leaves her own room. *)
Definition owner_left : world :=
  handle 1 (on_leave_group (Some "team1")) team1.

End Scenario.

(** * Proofs *)

(** ** Sanity checks of the library models *)

Example trim_spaces : JS.trim "  team1 " = "team1".
Proof. reflexivity. Qed.

Example trim_inner_space_kept : JS.trim " a b " = "a b".
Proof. reflexivity. Qed.

Example lrange_all : Redis.lrange_list [3; 2; 1]%nat 0 (-1) = [3; 2; 1]%nat.
Proof. reflexivity. Qed.

Example lrange_page : Redis.lrange_list [5; 4; 3; 2; 1]%nat 2 3 = [3; 2]%nat.
Proof. reflexivity. Qed.

Example lrange_past_end : Redis.lrange_list [5; 4; 3]%nat 3 7 = @nil nat.
Proof. reflexivity. Qed.

(** ** The key templates do not collide *)

Lemma string_app_length (s t : string) :
  String.length (s +:+ t) = (String.length s + String.length t)%nat.
Proof. induction s as [|c s IH]; simpl; [done|]. by rewrite IH. Qed.

Lemma string_app_assoc (a b c : string) : (a +:+ b) +:+ c = a +:+ (b +:+ c).
Proof.
  induction a as [|x a IH]; [done|].
  change (String x ((a +:+ b) +:+ c) = String x (a +:+ (b +:+ c))). by rewrite IH.
Qed.

Lemma string_app_inj_tail (s s' t t' : string) :
  String.length t = String.length t' → s +:+ t = s' +:+ t' → s = s' ∧ t = t'.
Proof.
  intros Hlen. revert s'. induction s as [|c s IH]; intros [|c' s'] Heq; simpl in Heq.
  - done.
  - apply (f_equal String.length) in Heq. simpl in Heq.
    rewrite !string_app_length in Heq. simpl in Heq. lia.
  - apply (f_equal String.length) in Heq. simpl in Heq.
    rewrite !string_app_length in Heq. simpl in Heq. lia.
  - injection Heq as -> Heq. destruct (IH s' Heq) as [-> ->]. done.
Qed.

Lemma key_name_inj : Inj (=) (=) key_name.
Proof.
  intros k k' Heq.
  destruct k as [| |g|g|g], k' as [| |g'|g'|g']; cbn in Heq; try discriminate;
    try done; injection Heq as Heq;
    change ("" +:+ ?x)%string with x in Heq.
  - by apply string_app_inj_tail in Heq as [-> _].
  - change (g +:+ ":meta") with (g +:+ (":met" +:+ "a")) in Heq.
    change (g' +:+ ":members") with (g' +:+ (":member" +:+ "s")) in Heq.
    rewrite <- !string_app_assoc in Heq.
    by apply string_app_inj_tail in Heq as [_ [=]].
  - change (g +:+ ":meta") with (g +:+ (":met" +:+ "a")) in Heq.
    change (g' +:+ ":messages") with (g' +:+ (":message" +:+ "s")) in Heq.
    rewrite <- !string_app_assoc in Heq.
    by apply string_app_inj_tail in Heq as [_ [=]].
  - change (g +:+ ":members") with (g +:+ (":member" +:+ "s")) in Heq.
    change (g' +:+ ":meta") with (g' +:+ (":met" +:+ "a")) in Heq.
    rewrite <- !string_app_assoc in Heq.
    by apply string_app_inj_tail in Heq as [_ [=]].
  - by apply string_app_inj_tail in Heq as [-> _].
  - change (g +:+ ":members") with (g +:+ (":membe" +:+ "rs")) in Heq.
    change (g' +:+ ":messages") with (g' +:+ (":messag" +:+ "es")) in Heq.
    rewrite <- !string_app_assoc in Heq.
    by apply string_app_inj_tail in Heq as [_ [=]].
  - change (g +:+ ":messages") with (g +:+ (":message" +:+ "s")) in Heq.
    change (g' +:+ ":meta") with (g' +:+ (":met" +:+ "a")) in Heq.
    rewrite <- !string_app_assoc in Heq.
    by apply string_app_inj_tail in Heq as [_ [=]].
  - change (g +:+ ":messages") with (g +:+ (":messag" +:+ "es")) in Heq.
    change (g' +:+ ":members") with (g' +:+ (":membe" +:+ "rs")) in Heq.
    rewrite <- !string_app_assoc in Heq.
    by apply string_app_inj_tail in Heq as [_ [=]].
  - by apply string_app_inj_tail in Heq as [-> _].
Qed.

(** Unfolds a handler down to the state transformer it denotes. *)
Ltac exec := cbv [handle connection run
  handleUsernameSelection handleCreateGroup handleJoinGroup handleGroupMessage
  handleClearGroupHistory handleDeleteGroup handleLeaveGroup handleMessage
  handleDisconnection loadHistoricalMessages loadPaginatedMessages clearChatHistory
  handleUsernameSelection_undefined handleMessage_undefined load_more_messages_undefined
  mbind M_bind mret M_ret when return_ throw try_catch gets modify handleRedisOperation
  get_username set_username socket_join socket_leave
  socket_emit socket_broadcast_emit io_emit io_to_emit emit_to
  valkeyClient.sismember valkeyClient.sadd valkeyClient.srem valkeyClient.hset
  valkeyClient.hgetall valkeyClient.lpush valkeyClient.lrange valkeyClient.del
  valkeyClient.query valkeyClient.update valkeyClient.command id
  activeUsernames sockets store faults clock outbox
  set_activeUsernames set_sockets set_store set_faults push_outbox fst snd].

Section lrange.
Context {A : Type}.
Implicit Types l : list A.

Lemma lrange_list_all l : Redis.lrange_list l 0 (-1) = l.
Proof.
  unfold Redis.lrange_list.
  change (0 <? 0)%Z with false. change (-1 <? 0)%Z with true. cbv beta iota zeta.
  destruct l as [|x l]; [done|].
  assert (Hlen : (0 < Z.of_nat (List.length (x :: l)))%Z) by (cbn [List.length]; lia).
  rewrite orb_false_intro; [|apply Z.ltb_ge; lia|apply Z.leb_gt; lia].
  rewrite Z.min_r by lia. rewrite drop_0. apply take_ge. lia.
Qed.

Lemma lrange_list_page l (offset limit : Z) :
  (0 ≤ offset)%Z → (0 < limit)%Z →
  Redis.lrange_list l offset (offset + limit - 1) =
  take (Z.to_nat limit) (drop (Z.to_nat offset) l).
Proof.
  intros Ho Hl. unfold Redis.lrange_list.
  rewrite (proj2 (Z.ltb_ge offset 0)) by lia.
  rewrite (proj2 (Z.ltb_ge (offset + limit - 1) 0)) by lia.
  rewrite (proj2 (Z.ltb_ge (offset + limit - 1) offset)) by lia. simpl.
  destruct (Z.leb_spec (Z.of_nat (List.length l)) offset) as [Hge|Hlt].
  - rewrite drop_ge by lia. by rewrite take_nil.
  - destruct (Z.le_ge_cases (offset + limit - 1) (Z.of_nat (List.length l) - 1)).
    + rewrite Z.min_l by lia. f_equal. lia.
    + rewrite Z.min_r by lia.
      rewrite !take_ge; [done| |]; rewrite length_drop; lia.
Qed.

End lrange.

(** ** Reading the lobby log *)

Lemma loadPaginatedMessages_ok w sid offset limit :
  (0 ≤ offset)%Z → (0 < limit)%Z → faults w = [] →
  let page := take (Z.to_nat limit) (drop (Z.to_nat offset) (Redis.llist CHAT_MESSAGES (store w))) in
  handle sid (on_load_more_messages (Some offset) (Some limit)) w =
  push_outbox (Delivery {[sid]} (paginated_messages page
    (bool_decide (Z.of_nat (List.length page) = limit))
    (offset + Z.of_nat (List.length page)))) w.
Proof.
  intros Ho Hl Hf. destruct w as [au ss st fs ck ob]; simpl in Hf; subst fs.
  exec. cbn [default]. unfold Redis.lrange.
  by rewrite lrange_list_page.
Qed.

Lemma loadHistoricalMessages_ok w sid :
  faults w = [] →
  handle sid on_request_global_history w =
  push_outbox (Delivery {[sid]}
    (historical_messages (Redis.llist CHAT_MESSAGES (store w)))) w.
Proof.
  intros Hf. destruct w as [au ss st fs ck ob]; simpl in Hf; subst fs.
  exec. unfold Redis.lrange. by rewrite lrange_list_all.
Qed.

(** C7: a page request with [offset >= 0] and [limit > 0] is answered
    with at most [limit] messages, taken from the log after skipping the
    [offset] newest entries, with [hasMore] set exactly when the page is
    full and the continuation offset [offset + count]. *)
Theorem C7_readRange w sid offset limit :
  (0 ≤ offset)%Z → (0 < limit)%Z → faults w = [] →
  ∃ page,
    page = take (Z.to_nat limit) (drop (Z.to_nat offset) (Redis.llist CHAT_MESSAGES (store w)))
    ∧ (Z.of_nat (List.length page) ≤ limit)%Z
    ∧ emitted w (handle sid (on_load_more_messages (Some offset) (Some limit)) w) =
      [Delivery {[sid]} (paginated_messages page
         (bool_decide (Z.of_nat (List.length page) = limit))
         (offset + Z.of_nat (List.length page)))].
Proof.
  intros Ho Hl Hf. eexists. split; [reflexivity|]. split.
  - rewrite length_take. lia.
  - rewrite loadPaginatedMessages_ok by done.
    unfold emitted, push_outbox. cbn [outbox].
    by rewrite drop_app_length.
Qed.
Lemma C7_readRange_witness :
  ∃ page,
    page = take 2 (drop 1 (Redis.llist CHAT_MESSAGES (store Scenario.lobby)))
    ∧ (Z.of_nat (List.length page) ≤ 2)%Z
    ∧ emitted Scenario.lobby (handle 1 (on_load_more_messages (Some 1%Z) (Some 2%Z)) Scenario.lobby) =
      [Delivery {[1]} (paginated_messages page
         (bool_decide (Z.of_nat (List.length page) = 2%Z))
         (1 + Z.of_nat (List.length page)))].
Proof. apply (C7_readRange Scenario.lobby 1 1 2); [lia | lia | reflexivity]. Defined.

Example page_of_lobby :
  ev <$> emitted Scenario.lobby (handle 1 (on_load_more_messages (Some 1%Z) (Some 2%Z)) Scenario.lobby) =
  [paginated_messages [MessageData None "alice" "second" "10:02"; MessageData None "alice" "first" "10:01"] true 3].
Proof. vm_compute. reflexivity. Qed.

Lemma paginate_from w sid limit (fuel : nat) :
  (0 < limit)%Z → faults w = [] →
  ∀ offset : nat,
    (List.length (Redis.llist CHAT_MESSAGES (store w)) - offset < fuel)%nat →
    paginate fuel sid (Z.of_nat offset) limit w =
    Some (drop offset (Redis.llist CHAT_MESSAGES (store w)), false).
Proof.
  intros Hl. revert w. induction fuel as [|fuel IH]; intros w Hf offset Hfuel; [lia|].
  cbn [paginate].
  rewrite loadPaginatedMessages_ok by (done || lia).
  set (log := Redis.llist CHAT_MESSAGES (store w)) in *.
  rewrite Nat2Z.id.
  set (page := take (Z.to_nat limit) (drop offset log)).
  unfold push_outbox at 1. cbn [outbox]. rewrite last_snoc. cbn [fmap option_fmap option_map ev].
  case_bool_decide as Hfull.
  - assert (Hlen : List.length page = Z.to_nat limit) by lia.
    assert (Hdrop : (Z.to_nat limit ≤ List.length (drop offset log))%nat).
    { subst page. rewrite length_take in Hlen. lia. }
    rewrite length_drop in Hdrop.
    replace (Z.of_nat offset + Z.of_nat (List.length page))%Z
      with (Z.of_nat (offset + Z.to_nat limit)) by lia.
    rewrite IH.
    + cbn [store push_outbox]. fold log.
      f_equal. f_equal. subst page.
      rewrite <- (take_drop (Z.to_nat limit) (drop offset log)) at 2.
      f_equal. rewrite drop_drop. done.
    + destruct w; done.
    + destruct w; cbn [store push_outbox]. cbn [store] in log. fold log. lia.
  - f_equal. f_equal. subst page. apply take_ge.
    rewrite length_take in Hfull. lia.
Qed.

(** C8: paging through the lobby log from offset 0 with any page size
    [L > 0], following the returned offsets while [hasMore] is set, ends
    (any fuel above the number of stored messages suffices), the last
    page has [hasMore = false], and the pages concatenated are exactly
    the sequence the full read delivers. *)
Theorem C8_pagination_reconstructs_full_read w sid limit fuel :
  (0 < limit)%Z → faults w = [] →
  (List.length (Redis.llist CHAT_MESSAGES (store w)) < fuel)%nat →
  ∃ full,
    emitted w (handle sid on_request_global_history w) =
      [Delivery {[sid]} (historical_messages full)]
    ∧ paginate fuel sid 0 limit w = Some (full, false).
Proof.
  intros Hl Hf Hfuel. exists (Redis.llist CHAT_MESSAGES (store w)). split.
  - rewrite loadHistoricalMessages_ok by done.
    unfold emitted, push_outbox. cbn [outbox]. by rewrite drop_app_length.
  - change 0%Z with (Z.of_nat 0). rewrite paginate_from by (done || lia). done.
Qed.

Lemma C8_pagination_reconstructs_full_read_witness :
  ∃ full,
    emitted Scenario.lobby (handle 1 on_request_global_history Scenario.lobby) =
      [Delivery {[1]} (historical_messages full)]
    ∧ paginate 4 1 0 2 Scenario.lobby = Some (full, false).
Proof.
  apply (C8_pagination_reconstructs_full_read Scenario.lobby 1 2 4);
    [lia | reflexivity | vm_compute; lia].
Defined.

Example paginate_lobby_by_two :
  paginate 4 1 0 2 Scenario.lobby =
  Some ([MessageData None "alice" "third" "10:03";
         MessageData None "alice" "second" "10:02";
         MessageData None "alice" "first" "10:01"], false).
Proof. vm_compute. reflexivity. Qed.

Example paginate_lobby_by_three_needs_an_empty_page :
  paginate 1 1 0 3 Scenario.lobby = None
  ∧ (fst <$> paginate 2 1 0 3 Scenario.lobby) =
    Some (Redis.llist CHAT_MESSAGES (store Scenario.lobby)).
Proof. vm_compute. done. Qed.

Lemma llist_lpush k v r : Redis.llist k (Redis.lpush k v r) = v :: Redis.llist k r.
Proof. unfold Redis.llist, Redis.lpush. cbn [lists]. by rewrite lookup_insert_eq. Qed.

Lemma handleMessage_ok w sid u m t :
  faults w = [] → username_of sid w = Some u → JS.truthy u = true →
  handle sid (on_message m t) w =
  push_outbox (Delivery (dom (sockets w)) (message (MessageData None u m t)))
    (set_store (Redis.lpush CHAT_MESSAGES (MessageData None u m t)) w).
Proof.
  intros Hf Hu Ht. destruct w as [au ss st fs ck ob]; simpl in Hf; subst fs.
  unfold username_of in Hu; cbv [mbind sockets] in Hu.
  exec. rewrite Hu. cbn [not_username default]. by rewrite Ht.
Qed.

(** After a lobby message is stored, the full read starts with it: the
    log is delivered newest first. *)
Lemma full_read_starts_with_newest w sid u m t :
  faults w = [] → username_of sid w = Some u → JS.truthy u = true →
  let w' := handle sid (on_message m t) w in
  emitted w' (handle sid on_request_global_history w') =
  [Delivery {[sid]} (historical_messages
     (MessageData None u m t :: Redis.llist CHAT_MESSAGES (store w)))].
Proof.
  intros Hf Hu Ht w'. subst w'. rewrite (handleMessage_ok w sid u) by done.
  rewrite loadHistoricalMessages_ok by (by destruct w).
  unfold emitted. cbn [push_outbox set_store outbox store].
  by rewrite llist_lpush, drop_app_length.
Qed.

Lemma add_at_bottom_all msgs pane :
  foldl (λ pane m, Client.addMessageToChat m false pane) pane msgs = pane ++ msgs.
Proof.
  revert pane. induction msgs as [|m msgs IH]; intros pane; cbn [foldl].
  - by rewrite app_nil_r.
  - rewrite IH. unfold Client.addMessageToChat. by rewrite <- app_assoc.
Qed.

Lemma on_historical_messages_id msgs : Client.on_historical_messages msgs = msgs.
Proof. unfold Client.on_historical_messages. by rewrite add_at_bottom_all. Qed.

Lemma handleLoadMoreMessages_rev msgs pane :
  Client.handleLoadMoreMessages msgs pane = rev msgs ++ pane.
Proof.
  unfold Client.handleLoadMoreMessages, Client.addMessageToChat.
  revert pane. induction msgs as [|m msgs IH]; intros pane; cbn [foldl rev]; [done|].
  rewrite IH. by rewrite <- app_assoc.
Qed.

(** C2: in the lobby where alice posted "first", "second", "third" in
    that order, the full read delivers "third" first and "first" last;
    the client shows them top to bottom in that order and puts the next
    live message below "first", while the same log loaded by pages is
    shown oldest on top. *)
Theorem C2_full_read_is_newest_first :
  let third := MessageData None "alice" "third" "10:03" in
  let second := MessageData None "alice" "second" "10:02" in
  let first := MessageData None "alice" "first" "10:01" in
  let live := MessageData None "alice" "fourth" "10:04" in
  ev <$> emitted Scenario.lobby (handle 1 on_request_global_history Scenario.lobby) =
    [historical_messages [third; second; first]]
  ∧ Client.on_message live (Client.on_historical_messages [third; second; first]) =
    [third; second; first; live]
  ∧ Client.on_message live (Client.handleLoadMoreMessages [third; second; first] []) =
    [first; second; third; live].
Proof. vm_compute. done. Qed.

(** The same order reaches a client that joins a room. *)
Example join_history_is_newest_first :
  let w := handle 1 (on_group_message (Some "team1") (Some "two") "10:06")
             (handle 1 (on_group_message (Some "team1") (Some "one") "10:05") Scenario.team1) in
  ev <$> emitted w (handle 2 (on_join_group (Some "team1")) w) =
  [group_joined "team1" "Team One"
     [MessageData (Some "team1") "alice" "two" "10:06";
      MessageData (Some "team1") "alice" "one" "10:05"]].
Proof. vm_compute. reflexivity. Qed.

(** ** Facts about the Redis commands *)

Section redis_facts.
Implicit Types (r : redis) (k : key) (m : string).

Lemma smembers_sadd k k' m r :
  Redis.smembers k' (Redis.sadd k m r) =
  if decide (k = k') then {[m]} ∪ Redis.smembers k r else Redis.smembers k' r.
Proof.
  unfold Redis.smembers, Redis.sadd. cbn [sets]. case_decide as Hk.
  - subst. by rewrite lookup_insert_eq.
  - by rewrite lookup_insert_ne.
Qed.

Lemma smembers_srem k k' m r :
  Redis.smembers k' (Redis.srem k m r) =
  if decide (k = k') then Redis.smembers k r ∖ {[m]} else Redis.smembers k' r.
Proof.
  unfold Redis.srem. unfold Redis.smembers at 1. cbn [sets].
  destruct (decide (Redis.smembers k r ∖ {[m]} = ∅)) as [He|He];
    destruct (decide (k = k')) as [->|Hk].
  - by rewrite lookup_delete_eq, He.
  - by rewrite lookup_delete_ne.
  - by rewrite lookup_insert_eq.
  - by rewrite lookup_insert_ne.
Qed.

Lemma smembers_del k k' r :
  Redis.smembers k' (Redis.del k r) =
  if decide (k = k') then ∅ else Redis.smembers k' r.
Proof.
  unfold Redis.smembers, Redis.del. cbn [sets]. case_decide as Hk.
  - subst. by rewrite lookup_delete_eq.
  - by rewrite lookup_delete_ne.
Qed.

Lemma hgetall_del k k' r :
  Redis.hgetall k' (Redis.del k r) =
  if decide (k = k') then ∅ else Redis.hgetall k' r.
Proof.
  unfold Redis.hgetall, Redis.del. cbn [hashes]. case_decide as Hk.
  - subst. by rewrite lookup_delete_eq.
  - by rewrite lookup_delete_ne.
Qed.

Lemma llist_del k k' r :
  Redis.llist k' (Redis.del k r) =
  if decide (k = k') then [] else Redis.llist k' r.
Proof.
  unfold Redis.llist, Redis.del. cbn [lists]. case_decide as Hk.
  - subst. by rewrite lookup_delete_eq.
  - by rewrite lookup_delete_ne.
Qed.

Lemma hgetall_srem k k' m r : Redis.hgetall k' (Redis.srem k m r) = Redis.hgetall k' r.
Proof. done. Qed.

Lemma llist_srem k k' m r : Redis.llist k' (Redis.srem k m r) = Redis.llist k' r.
Proof. done. Qed.

End redis_facts.

(** ** Deleting a room *)

(** Brings a fact about a socket's user name into the shape the
    unfolded handlers have. *)
Ltac user_in H := unfold holds, username_of in H; cbv [mbind sockets] in H.

Lemma handleDeleteGroup_ok w sid u g :
  holds sid u w → JS.truthy u = true →
  isValidGroupId (room_of g) = true →
  room_of g ∈ Redis.smembers GROUPS_SET (store w) →
  Redis.hgetall (meta (room_of g)) (store w) !! "owner" = Some u →
  faults w = [] →
  handle sid (on_delete_group g) w =
  set_sockets (fmap (λ s, Socket (username s) (rooms s ∖ {[room_of g]})))
    (set_store (λ st, Redis.srem GROUPS_SET (room_of g)
                 (Redis.del (meta (room_of g))
                   (Redis.del (members (room_of g))
                     (Redis.del (messages (room_of g)) st))))
      (push_outbox (Delivery (in_room (room_of g) w) (group_deleted (room_of g) u)) w)).
Proof.
  intros Hu Ht Hv Hex Hown Hf.
  destruct w as [au ss st fs ck ob]; simpl in Hf; subst fs.
  user_in Hu. cbn [store] in Hex, Hown. unfold room_of in *.
  exec. rewrite Hu. cbn [not_username default]. rewrite Ht, Hv. cbn [negb].
  unfold Redis.sismember. rewrite bool_decide_eq_true_2 by done. cbn [negb].
  rewrite bool_decide_eq_true_2 by done. cbn [negb].
  reflexivity.
Qed.

(** C1: in an existing room whose recorded owner is not the requester,
    a deletion request changes nothing in the store (registry, metadata,
    membership set and message log), nor in the sessions, and the
    requester alone gets an error event, which is the only-the-owner
    error whenever the store commands go through. Hence a deletion that
    goes through comes from the owner. *)
Theorem C1_delete_requires_owner w sid u g r :
  wf_store (store w) → holds sid u w → JS.truthy u = true →
  room_of g = r → r ∈ Redis.smembers GROUPS_SET (store w) →
  Redis.hgetall (meta r) (store w) !! "owner" ≠ Some u →
  let w' := handle sid (on_delete_group g) w in
  store w' = store w ∧ sockets w' = sockets w
  ∧ activeUsernames w' = activeUsernames w
  ∧ ∃ msg, emitted w w' = [Delivery {[sid]} (error msg)]
      ∧ (faults w = [] → msg = "Only the group owner can delete this group.").
Proof.
  intros Hwf Hu Ht Hr Hex Hown w'. subst w'.
  pose proof (Hwf r Hex) as Hv.
  destruct w as [au ss st fs ck ob]. user_in Hu. cbn [store] in Hex, Hown.
  unfold room_of in Hr. unfold emitted.
  destruct fs as [|[|] [|[|] fs]]; exec; rewrite Hu; cbn [not_username default];
    rewrite Ht, Hr, Hv; cbn [negb]; unfold Redis.sismember;
    rewrite ?bool_decide_eq_true_2 by done; cbn [negb];
    rewrite ?bool_decide_eq_false_2 by done; cbn [negb];
    rewrite drop_app_length;
    (repeat split; eexists; split; [reflexivity | done]).
Qed.

Lemma team1_registry :
  Redis.smembers GROUPS_SET (store Scenario.team1) = {["team1"]}.
Proof. vm_compute. reflexivity. Qed.

Lemma team1_wf : wf_store (store Scenario.team1).
Proof.
  intros g Hg. rewrite team1_registry in Hg.
  apply elem_of_singleton in Hg as ->. reflexivity.
Qed.

Lemma owner_left_wf : wf_store (store Scenario.owner_left).
Proof.
  intros g Hg.
  replace (Redis.smembers GROUPS_SET (store Scenario.owner_left))
    with ({["team1"]} : gset string) in Hg by (vm_compute; reflexivity).
  apply elem_of_singleton in Hg as ->. reflexivity.
Qed.

Lemma C1_delete_requires_owner_witness :
  let w := Scenario.team1 in
  let w' := handle 2 (on_delete_group (Some "team1")) w in
  store w' = store w ∧ sockets w' = sockets w
  ∧ activeUsernames w' = activeUsernames w
  ∧ ∃ msg, emitted w w' = [Delivery {[2]} (error msg)]
      ∧ (faults w = [] → msg = "Only the group owner can delete this group.").
Proof.
  apply (C1_delete_requires_owner Scenario.team1 2 "bob" (Some "team1") "team1").
  - exact team1_wf.
  - reflexivity.
  - reflexivity.
  - reflexivity.
  - rewrite team1_registry. apply elem_of_singleton. reflexivity.
  - vm_compute. discriminate.
Defined.

(** C10: the recorded owner's deletion request goes through whatever
    the membership set of the room is, so also after the owner has left:
    the room's channel gets [group_deleted], the id leaves the registry
    and metadata, membership set and message log are gone. *)
Theorem C10_owner_deletes_without_membership w sid u g r :
  wf_store (store w) → holds sid u w → JS.truthy u = true →
  room_of g = r → r ∈ Redis.smembers GROUPS_SET (store w) →
  Redis.hgetall (meta r) (store w) !! "owner" = Some u →
  faults w = [] →
  let w' := handle sid (on_delete_group g) w in
  emitted w w' = [Delivery (in_room r w) (group_deleted r u)]
  ∧ (r ∉ Redis.smembers GROUPS_SET (store w'))
  ∧ Redis.hgetall (meta r) (store w') = ∅
  ∧ Redis.smembers (members r) (store w') = ∅
  ∧ Redis.llist (messages r) (store w') = [].
Proof.
  intros Hwf Hu Ht Hr Hex Hown Hf w'. subst w' r.
  rewrite (handleDeleteGroup_ok w sid u g) by auto.
  unfold emitted. destruct w as [au ss st fs ck ob].
  cbn [set_sockets set_store push_outbox store outbox].
  rewrite drop_app_length. split; [done|].
  rewrite !smembers_srem, hgetall_srem, llist_srem, !smembers_del, !hgetall_del, !llist_del.
  repeat match goal with |- context [decide (?a = ?b)] => destruct (decide (a = b)); try done end.
  split; [|done].
  intros [_ Hn]%elem_of_difference. by apply Hn, elem_of_singleton.
Qed.

Lemma C10_owner_deletes_without_membership_witness :
  let w := Scenario.owner_left in
  let w' := handle 1 (on_delete_group (Some "team1")) w in
  ("alice" ∉ Redis.smembers (members "team1") (store w))
  ∧ emitted w w' = [Delivery (in_room "team1" w) (group_deleted "team1" "alice")]
  ∧ ("team1" ∉ Redis.smembers GROUPS_SET (store w'))
  ∧ Redis.hgetall (meta "team1") (store w') = ∅
  ∧ Redis.smembers (members "team1") (store w') = ∅
  ∧ Redis.llist (messages "team1") (store w') = [].
Proof.
  split.
  - replace (Redis.smembers (members "team1") (store Scenario.owner_left))
      with (∅ : gset string) by (vm_compute; reflexivity).
    apply not_elem_of_empty.
  - apply (C10_owner_deletes_without_membership Scenario.owner_left 1 "alice" (Some "team1") "team1").
    + exact owner_left_wf.
    + reflexivity.
    + reflexivity.
    + reflexivity.
    + replace (Redis.smembers GROUPS_SET (store Scenario.owner_left))
        with ({["team1"]} : gset string) by (vm_compute; reflexivity).
      apply elem_of_singleton. reflexivity.
    + vm_compute. reflexivity.
    + reflexivity.
Defined.

(** ** Relations that every run of a handler respects *)

Section keeps.
Context (R : relation world) `{!PreOrder R}.

Lemma keeps_ret {A} (a : A) : keeps R (mret a).
Proof. intros w. reflexivity. Qed.

Lemma keeps_return_ {A} : keeps R (@return_ A).
Proof. intros w. reflexivity. Qed.

Lemma keeps_throw {A} : keeps R (@throw A).
Proof. intros w. reflexivity. Qed.

Lemma keeps_gets {A} (f : world → A) : keeps R (gets f).
Proof. intros w. reflexivity. Qed.

Lemma keeps_modify f : (∀ w, R w (f w)) → keeps R (modify f).
Proof. intros Hf w. apply Hf. Qed.

Lemma keeps_bind {A B} (m : M A) (f : A → M B) :
  keeps R m → (∀ a, keeps R (f a)) → keeps R (m ≫= f).
Proof.
  intros Hm Hf w. unfold mbind, M_bind. specialize (Hm w).
  destruct (m w) as [[a| |] w1]; cbn [snd] in *; [|done|done].
  etransitivity; [exact Hm | apply Hf].
Qed.

Lemma keeps_try_catch {A} (body handler : M A) :
  keeps R body → keeps R handler → keeps R (try_catch body handler).
Proof.
  intros Hb Hh w. unfold try_catch. specialize (Hb w).
  destruct (body w) as [[a| |] w1]; cbn [snd] in *; [done|done|].
  etransitivity; [exact Hb | apply Hh].
Qed.

Lemma keeps_if {A} (c : bool) (m1 m2 : M A) :
  keeps R m1 → keeps R m2 → keeps R (if c then m1 else m2).
Proof. by destruct c. Qed.

Lemma keeps_when c (m : M unit) : keeps R m → keeps R (when c m).
Proof. intros Hm. destruct c; [exact Hm | apply keeps_ret]. Qed.

(** A guard that returns early: what follows runs only if it did not fire. *)
Lemma keeps_guard {B} c (m : M unit) (k : M B) :
  keeps R m → (c = false → keeps R k) →
  keeps R (when c (m ;; return_) ;; k).
Proof.
  intros Hm Hk. destruct c.
  - intros w. unfold mbind, M_bind, when, return_. specialize (Hm w).
    destruct (m w) as [[a| |] w1]; done.
  - intros w. apply (Hk eq_refl).
Qed.

Lemma keeps_handleRedisOperation {A} (op : M A) :
  keeps R op → keeps R (handleRedisOperation op).
Proof. intros Hop. apply keeps_try_catch; [done | apply keeps_throw]. Qed.

Lemma keeps_command {A} (f : redis → A * redis) :
  (∀ w fs, R w (set_faults fs w)) →
  (∀ w, R w (set_store (λ _, (f (store w)).2) w)) →
  keeps R (valkeyClient.command f).
Proof.
  intros Hfs Hst w. unfold valkeyClient.command.
  destruct (faults w) as [|[|] fs]; cbn [snd]; [done|done|].
  etransitivity; [apply (Hfs w fs) | apply (Hst (set_faults fs w))].
Qed.

End keeps.

(** Takes a handler apart down to its state updates. *)
Ltac keeps_structure :=
  cbv zeta;
  repeat lazymatch goal with
    | |- PreOrder _ => exact _
    | |- keeps _ (when _ (_ ;; return_) ;; _) => apply keeps_guard
    | |- keeps _ (_ ≫= _) => apply keeps_bind
    | |- keeps _ (try_catch _ _) => apply keeps_try_catch
    | |- keeps _ (handleRedisOperation _) => apply keeps_handleRedisOperation
    | |- keeps _ (when _ _) => apply keeps_when
    | |- keeps _ (if _ then _ else _) => apply keeps_if
    | |- keeps _ (mret _) => apply keeps_ret
    | |- keeps _ return_ => apply keeps_return_
    | |- keeps _ throw => apply keeps_throw
    | |- keeps _ (gets _) => apply keeps_gets
    | |- keeps _ (modify _) => apply keeps_modify
    | |- keeps _ (valkeyClient.command _) => apply keeps_command
    | |- keeps _ _ =>
        progress unfold handleDisconnection,
          socket_emit, socket_broadcast_emit, io_emit, io_to_emit, emit_to,
          get_username, set_username, socket_join, socket_leave,
          valkeyClient.sismember, valkeyClient.sadd, valkeyClient.srem,
          valkeyClient.hset, valkeyClient.hgetall, valkeyClient.lpush,
          valkeyClient.lrange, valkeyClient.del,
          valkeyClient.query, valkeyClient.update
    | |- ∀ _, _ => intro
    end.

(** *** Handlers that leave the sessions alone *)

#[local] Instance same_sessions_preorder : PreOrder same_sessions.
Proof.
  split.
  - by intros w.
  - intros w1 w2 w3 (Ha & Hu & Hd) (Ha' & Hu' & Hd'). split; [congruence|]. split.
    + intros sid. by rewrite Hu', Hu.
    + by rewrite Hd', Hd.
Qed.

Lemma username_of_alter (f : socket → socket) sid x w :
  (∀ s, username (f s) = username s) →
  username_of x (set_sockets (alter f sid) w) = username_of x w.
Proof.
  intros Hf. unfold username_of, set_sockets. cbn [sockets]. rewrite lookup_alter.
  case_decide; [subst|done]. destruct (sockets w !! x); [apply Hf | done].
Qed.

Lemma username_of_fmap (f : socket → socket) x w :
  (∀ s, username (f s) = username s) →
  username_of x (set_sockets (fmap f) w) = username_of x w.
Proof.
  intros Hf. unfold username_of, set_sockets. cbn [sockets]. rewrite lookup_fmap.
  destruct (sockets w !! x); [apply Hf | done].
Qed.

Ltac same_sessions_update :=
  lazymatch goal with
  | |- same_sessions _ (set_sockets (alter _ _) _) =>
      split; [done|]; split;
      [intros ?; by apply username_of_alter | apply dom_alter_L]
  | |- same_sessions _ (set_sockets (fmap _) _) =>
      split; [done|]; split;
      [intros ?; by apply username_of_fmap | apply dom_fmap_L]
  | |- same_sessions _ _ => done
  end.

Lemma frame_sessions sid req :
  (∀ name, req ≠ on_select_username name) → req ≠ on_disconnect →
  ∀ w, same_sessions w (handle sid req w).
Proof.
  intros Hsel Hdis.
  destruct req as [name|m t|o l| |g n|g|g|g m t|g|g| | | | |];
    [by destruct (Hsel name)|..]; try (by destruct Hdis); unfold handle, run;
    match goal with |- ∀ w, same_sessions w (?m w).2 => change (keeps same_sessions m) end.
  all: match goal with |- keeps _ (?h _) => unfold h | |- keeps _ (?h _ _) => unfold h
       | |- keeps _ (?h _ _ _) => unfold h | |- keeps _ (?h _ _ _ _) => unfold h end.
  all: keeps_structure; same_sessions_update.
Qed.

(** *** Every step keeps the registry well-formed *)

#[local] Instance wf_kept_preorder : PreOrder wf_kept.
Proof.
  split.
  - intros w Hwf. exact Hwf.
  - intros w1 w2 w3 H1 H2 Hwf. exact (H2 (H1 Hwf)).
Qed.

Lemma wf_sadd k m r :
  wf_store r → (k = GROUPS_SET → isValidGroupId m = true) →
  wf_store (Redis.sadd k m r).
Proof.
  intros Hwf Hm g. rewrite smembers_sadd. case_decide as Hk; [subst k|apply Hwf].
  intros [Hg%elem_of_singleton|Hg]%elem_of_union.
  - subst g. by apply Hm.
  - by apply Hwf.
Qed.

Lemma wf_srem k m r : wf_store r → wf_store (Redis.srem k m r).
Proof.
  intros Hwf g. rewrite smembers_srem. case_decide as Hk; [subst k|apply Hwf].
  intros [Hg _]%elem_of_difference. by apply Hwf.
Qed.

Lemma wf_del k r : wf_store r → wf_store (Redis.del k r).
Proof.
  intros Hwf g. rewrite smembers_del. case_decide as Hk; [|apply Hwf].
  by intros ?%elem_of_empty.
Qed.

Ltac wf_update :=
  lazymatch goal with
  | |- wf_kept _ (set_store _ _) =>
      intros ?; cbn [set_store store snd];
      first [ assumption
            | apply wf_sadd; [assumption | first [discriminate | intros _]]
            | by apply wf_srem | by apply wf_del | idtac ]
  | |- wf_kept _ _ => by intros ?
  end.

Lemma wf_store_handle sid req w :
  wf_store (store w) → wf_store (store (handle sid req w)).
Proof.
  revert w. change (∀ w, wf_kept w (handle sid req w)).
  destruct req as [name|m t|o l| |g n|g|g|g m t|g|g| | | | |]; unfold handle, run;
    match goal with |- ∀ w, wf_kept w (?m w).2 => change (keeps wf_kept m) end.
  all: match goal with |- keeps _ (?h _) => unfold h | |- keeps _ (?h _ _) => unfold h
       | |- keeps _ (?h _ _ _) => unfold h | |- keeps _ (?h _ _ _ _) => unfold h
       | |- _ => idtac end.
  all: keeps_structure; wf_update.
  by apply negb_false_iff.
Qed.

Lemma wf_store_step w l w' :
  step w l w' → wf_store (store w) → wf_store (store w').
Proof.
  intros [w0 sid Hfresh|w0 sid req Hlive]; [|apply wf_store_handle].
  revert w0 Hfresh. intros w0 _. revert w0.
  change (keeps wf_kept (modify (set_sockets (<[sid := Socket None ∅]>));;
                         loadHistoricalMessages sid)).
  unfold loadHistoricalMessages. keeps_structure; wf_update.
Qed.

(** ** Claiming and releasing an identity *)

Lemma handleUsernameSelection_taken w sid name :
  name ∈ activeUsernames w →
  handle sid (on_select_username name) w =
  push_outbox (Delivery {[sid]}
    (username_taken "Username is already taken. Please choose another.")) w.
Proof.
  intros Hin. destruct w as [au ss st fs ck ob]. cbn [activeUsernames] in Hin.
  exec. by rewrite bool_decide_eq_true_2.
Qed.

Lemma handleUsernameSelection_free w sid name :
  name ∉ activeUsernames w →
  handle sid (on_select_username name) w =
  push_outbox (Delivery (dom (sockets w) ∖ {[sid]}) (user_joined name))
    (push_outbox (Delivery {[sid]} (username_accepted name))
      (set_sockets (alter (λ s, Socket (Some name) (rooms s)) sid)
        (set_activeUsernames (λ s, {[name]} ∪ s) w))).
Proof.
  intros Hin. destruct w as [au ss st fs ck ob]. cbn [activeUsernames] in Hin.
  exec. rewrite bool_decide_eq_false_2 by done. by rewrite dom_alter_L.
Qed.

Lemma handleDisconnection_identified w sid u :
  holds sid u w → JS.truthy u = true →
  handle sid on_disconnect w =
  set_sockets (delete sid)
    (push_outbox (Delivery (dom (sockets w) ∖ {[sid]}) (user_left u))
      (set_activeUsernames (λ s, s ∖ {[u]}) w)).
Proof.
  intros Hu Ht. destruct w as [au ss st fs ck ob]. user_in Hu.
  exec. rewrite Hu. cbn [not_username default]. by rewrite Ht.
Qed.

Lemma handleDisconnection_anonymous w sid :
  not_username (username_of sid w) = true →
  handle sid on_disconnect w = set_sockets (delete sid) w.
Proof.
  intros Hu. destruct w as [au ss st fs ck ob].
  unfold username_of in Hu. cbv [mbind sockets] in Hu.
  exec. by rewrite Hu.
Qed.

Lemma connection_sessions w sid :
  activeUsernames (connection sid w) = activeUsernames w
  ∧ (∀ x, username_of x (connection sid w) =
          if decide (x = sid) then None else username_of x w).
Proof.
  pose proof (frame_sessions sid on_request_global_history
    ltac:(done) ltac:(done) (set_sockets (<[sid := Socket None ∅]>) w)) as (Ha & Hu & _).
  change (handle sid on_request_global_history
            (set_sockets (<[sid := Socket None ∅]>) w)) with (connection sid w) in *.
  split; [exact Ha|]. intros x. rewrite Hu.
  unfold username_of, set_sockets. cbn [sockets]. case_decide as Hx.
  - subst. by rewrite lookup_insert_eq.
  - by rewrite lookup_insert_ne.
Qed.

Lemma username_of_claimed w sid name x :
  is_Some (sockets w !! sid) →
  username_of x (set_sockets (alter (λ s, Socket (Some name) (rooms s)) sid) w) =
  if decide (x = sid) then Some name else username_of x w.
Proof.
  intros [s Hs]. unfold username_of, set_sockets. cbn [sockets].
  rewrite lookup_alter. case_decide as Hx; case_decide as Hx'; try congruence.
  subst. by rewrite Hs.
Qed.

Lemma username_of_gone w sid x :
  username_of x (set_sockets (delete sid) w) =
  if decide (x = sid) then None else username_of x w.
Proof.
  unfold username_of, set_sockets. cbn [sockets]. case_decide as Hx.
  - subst. by rewrite lookup_delete_eq.
  - by rewrite lookup_delete_ne.
Qed.

Lemma select_free_sessions w sid name :
  name ∉ activeUsernames w → is_Some (sockets w !! sid) →
  let w' := handle sid (on_select_username name) w in
  activeUsernames w' = {[name]} ∪ activeUsernames w
  ∧ ∀ x, username_of x w' = if decide (x = sid) then Some name else username_of x w.
Proof.
  intros Hfree Hlive w'. subst w'. rewrite handleUsernameSelection_free by done.
  split; [done|]. intros x. by rewrite <- (username_of_claimed w sid name x).
Qed.

Lemma disconnect_sessions w sid :
  let w' := handle sid on_disconnect w in
  activeUsernames w' =
    (if not_username (username_of sid w) then activeUsernames w
     else activeUsernames w ∖ {[default "" (username_of sid w)]})
  ∧ ∀ x, username_of x w' = if decide (x = sid) then None else username_of x w.
Proof.
  intros w'. subst w'. destruct (not_username (username_of sid w)) eqn:Hname.
  - rewrite handleDisconnection_anonymous by done. split; [done|].
    intros x. apply username_of_gone.
  - destruct (username_of sid w) as [u|] eqn:Hu; [|done]. cbn in Hname.
    apply negb_false_iff in Hname.
    rewrite (handleDisconnection_identified w sid u) by done. split; [done|].
    intros x. by rewrite <- (username_of_gone w sid x).
Qed.

Lemma sessions_consistent_step w l w' :
  step w l w' → sessions_consistent w → sessions_consistent w'.
Proof.
  intros Hstep [Hin Huniq]. unfold holds in Hin, Huniq.
  unfold sessions_consistent, holds.
  destruct Hstep as [w sid Hfresh|w sid req Hlive].
  - destruct (connection_sessions w sid) as [Ha Hu]. split.
    + intros x name. rewrite Hu, Ha. case_decide; [done|]. apply Hin.
    + intros a b name. rewrite !Hu. repeat case_decide; try done. apply Huniq.
  - destruct req as [name|m t|o l| |g n|g|g|g m t|g|g| | | | |].
    2-11, 13-15: match goal with |- context [handle _ ?r _] =>
            destruct (frame_sessions sid r ltac:(done) ltac:(done) w) as (Ha & Hu & _) end;
          setoid_rewrite Hu; rewrite Ha; by split.
    + destruct (decide (name ∈ activeUsernames w)) as [Ht|Hf].
      { rewrite handleUsernameSelection_taken by done. by split. }
      destruct (select_free_sessions w sid name Hf Hlive) as [Ha Hu].
      setoid_rewrite Hu. rewrite Ha. split.
      * intros x n. case_decide.
        -- intros [= <-]. by apply elem_of_union_l, elem_of_singleton.
        -- intros Hx. apply elem_of_union_r. by apply (Hin x).
      * intros a b n. repeat case_decide; try congruence.
        -- intros [= <-] Hb. destruct Hf. by apply (Hin b).
        -- intros Hn [= <-]. destruct Hf. by apply (Hin a).
        -- apply Huniq.
    + destruct (disconnect_sessions w sid) as [Ha Hu].
      setoid_rewrite Hu. rewrite Ha. split.
      * intros x n. case_decide as Hx; [done|]. intros Hxn.
        destruct (username_of sid w) as [u|] eqn:Hsu; cbn [not_username default];
          [|by apply (Hin x)].
        destruct (negb (JS.truthy u)); [by apply (Hin x)|].
        apply elem_of_difference. split; [by apply (Hin x)|].
        intros ->%elem_of_singleton. apply Hx. by apply (Huniq x sid u).
      * intros a b n. repeat case_decide; try done. apply Huniq.
Qed.

Lemma reachable_sessions_consistent w : reachable w → sessions_consistent w.
Proof.
  induction 1 as [r fs now|w l w' _ IH Hstep].
  - split; unfold holds, username_of, boot; cbn [sockets]; intros *; by rewrite lookup_empty.
  - by apply (sessions_consistent_step w l w').
Qed.

(** C5: in every state the server can reach, an identity [s] carried by
    a live session [a] is carried by no other live session; a claim of
    [s] by any session is answered with the already-taken event and
    changes nothing else; and the only step after which [s] can be
    claimed again is the disconnection of [a]. *)
Theorem C5_one_session_per_identity w a s :
  reachable w → holds a s w →
  (∀ b, holds b s w → b = a)
  ∧ (∀ b, handle b (on_select_username s) w =
          push_outbox (Delivery {[b]}
            (username_taken "Username is already taken. Please choose another.")) w)
  ∧ (∀ l w', step w l w' → s ∉ activeUsernames w' → l = Request a on_disconnect).
Proof.
  intros Hreach Ha.
  destruct (reachable_sessions_consistent w Hreach) as [Hin Huniq].
  pose proof (Hin a s Ha) as Hs.
  split; [|split].
  - intros b Hb. by apply (Huniq b a s).
  - intros b. by apply handleUsernameSelection_taken.
  - intros l w' Hstep Hgone. destruct Hstep as [w sid Hfresh|w sid req Hlive].
    { destruct (connection_sessions w sid) as [Hact _]. by rewrite Hact in Hgone. }
    destruct req as [name|m t|o l| |g n|g|g|g m t|g|g| | | | |].
    2-11, 13-15: match goal with _ : context [handle _ ?r _] |- _ =>
            destruct (frame_sessions sid r ltac:(done) ltac:(done) w) as (Hact & _ & _) end;
          by rewrite Hact in Hgone.
    + destruct (decide (name ∈ activeUsernames w)) as [Ht|Hf].
      * by rewrite handleUsernameSelection_taken in Hgone.
      * destruct (select_free_sessions w sid name Hf Hlive) as [Hact _].
        rewrite Hact in Hgone. destruct Hgone. by apply elem_of_union_r.
    + destruct (disconnect_sessions w sid) as [Hact _]. rewrite Hact in Hgone.
      destruct (username_of sid w) as [u|] eqn:Hu; cbn [not_username default] in Hgone;
        [|done].
      destruct (negb (JS.truthy u)); [done|].
      destruct (decide (u = s)) as [->|Hne].
      * by rewrite (Huniq sid a s Hu Ha).
      * destruct Hgone. apply elem_of_difference. split; [done|].
        by intros ?%elem_of_singleton.
Qed.

Lemma team1_reachable : reachable Scenario.team1.
Proof.
  unfold Scenario.team1, Scenario.alice_in, Scenario.start.
  eapply reachable_step; [|apply step_request; by vm_compute; eexists].
  eapply reachable_step; [|apply step_connect; by vm_compute].
  eapply reachable_step; [|apply step_request; by vm_compute; eexists].
  eapply reachable_step; [|apply step_request; by vm_compute; eexists].
  eapply reachable_step; [|apply step_connect; by vm_compute].
  apply reachable_boot.
Qed.

Lemma C5_one_session_per_identity_witness :
  let w := Scenario.team1 in
  (∀ b, holds b "alice" w → b = 1)
  ∧ (∀ b, handle b (on_select_username "alice") w =
          push_outbox (Delivery {[b]}
            (username_taken "Username is already taken. Please choose another.")) w)
  ∧ (∀ l w', step w l w' → "alice" ∉ activeUsernames w' → l = Request 1 on_disconnect).
Proof.
  apply (C5_one_session_per_identity Scenario.team1 1 "alice").
  - exact team1_reachable.
  - reflexivity.
Defined.

Example zoe_claimed_twice :
  let w := connection 2 (handle 1 (on_select_username "zoe") (connection 1 Scenario.start)) in
  ev <$> emitted w (handle 2 (on_select_username "zoe") w) =
  [username_taken "Username is already taken. Please choose another."].
Proof. vm_compute. reflexivity. Qed.

Example zoe_free_after_disconnect :
  let w := connection 2 (handle 1 (on_select_username "zoe") (connection 1 Scenario.start)) in
  let w' := handle 1 on_disconnect w in
  ev <$> emitted w' (handle 2 (on_select_username "zoe") w') =
  [username_accepted "zoe"; user_joined "zoe"].
Proof. vm_compute. reflexivity. Qed.

(** C6 (as stated, refuted): alice's session claims "bob" afterwards
    and its identity is re-bound. *)
Lemma C6_counterexample :
  let w := Scenario.alice_in in
  let w' := handle 1 (on_select_username "bob") w in
  reachable w ∧ holds 1 "alice" w ∧ holds 1 "bob" w'
  ∧ ev <$> emitted w w' = [username_accepted "bob"; user_joined "bob"].
Proof.
  split; [|by vm_compute].
  unfold Scenario.alice_in, Scenario.start.
  eapply reachable_step; [|apply step_request; by vm_compute; eexists].
  eapply reachable_step; [|apply step_connect; by vm_compute].
  apply reachable_boot.
Qed.

(** C6 (amended): a session has no identity when it connects; a claim
    of a name outside the set of claimed names binds the session to it,
    whether or not the session already carried an identity; a claim of
    a name in that set changes neither the session's identity nor the
    set; and a disconnection removes the non-empty identity the session
    carries from the set of claimed names and ends the session. *)
Theorem C6_identity_binding w sid name :
  is_Some (sockets w !! sid) →
  (∀ fresh, username_of fresh (connection fresh w) = None)
  ∧ (let w' := handle sid (on_select_username name) w in
     if decide (name ∈ activeUsernames w)
     then username_of sid w' = username_of sid w
          ∧ activeUsernames w' = activeUsernames w
     else holds sid name w'
          ∧ activeUsernames w' = {[name]} ∪ activeUsernames w)
  ∧ (let w' := handle sid on_disconnect w in
     sockets w' !! sid = None
     ∧ activeUsernames w' =
       match username_of sid w with
       | Some u => if JS.truthy u then activeUsernames w ∖ {[u]} else activeUsernames w
       | None => activeUsernames w
       end).
Proof.
  intros Hlive. split; [|split].
  - intros fresh. destruct (connection_sessions w fresh) as [_ Hu].
    rewrite Hu. by rewrite decide_True.
  - cbv zeta. case_decide as Hname.
    + by rewrite handleUsernameSelection_taken.
    + destruct (select_free_sessions w sid name Hname Hlive) as [Ha Hu].
      unfold holds. rewrite Hu. by rewrite decide_True.
  - cbv zeta. destruct (disconnect_sessions w sid) as [Ha Hu]. split.
    + clear Ha Hu. destruct (not_username (username_of sid w)) eqn:Hn.
      * rewrite handleDisconnection_anonymous by done. apply lookup_delete_eq.
      * destruct (username_of sid w) as [u|] eqn:Hw; [|done]. cbn in Hn.
        apply negb_false_iff in Hn.
        rewrite (handleDisconnection_identified w sid u) by done.
        apply lookup_delete_eq.
    + rewrite Ha. destruct (username_of sid w) as [u|]; cbn [not_username default]; [|done].
      by destruct (JS.truthy u).
Qed.

Lemma C6_identity_binding_witness :
  let w := Scenario.alice_in in
  (∀ fresh, username_of fresh (connection fresh w) = None)
  ∧ (let w' := handle 1 (on_select_username "bob") w in
     if decide ("bob" ∈ activeUsernames w)
     then username_of 1 w' = username_of 1 w
          ∧ activeUsernames w' = activeUsernames w
     else holds 1 "bob" w'
          ∧ activeUsernames w' = {["bob"]} ∪ activeUsernames w)
  ∧ (let w' := handle 1 on_disconnect w in
     sockets w' !! 1 = None
     ∧ activeUsernames w' =
       match username_of 1 w with
       | Some u => if JS.truthy u then activeUsernames w ∖ {[u]} else activeUsernames w
       | None => activeUsernames w
       end).
Proof.
  apply (C6_identity_binding Scenario.alice_in 1 "bob").
  vm_compute. eexists. reflexivity.
Defined.

(** A session that re-claims leaves its former name claimed, also after
    it has disconnected. *)
Example reclaim_keeps_first_name_claimed :
  let w := handle 1 on_disconnect (handle 1 (on_select_username "bob") Scenario.alice_in) in
  sockets w = ∅ ∧ activeUsernames w = {["alice"]}.
Proof. vm_compute. done. Qed.

(** ** Validation of a user name *)

Lemma truthy_false s : JS.truthy s = false ↔ s = "".
Proof. by destruct s. Qed.

Lemma validateUsername_rejects s :
  lexically_invalid s → is_Some (Client.validateUsername s).
Proof.
  unfold lexically_invalid, Client.validateUsername, JS.testIdPlus. cbv zeta.
  generalize (JS.trim s). intros t Hbad.
  destruct (JS.truthy t) eqn:Ht; [|by eexists]. cbn [negb].
  destruct (Nat.ltb_spec (String.length t) 2); [by eexists|].
  destruct (Nat.ltb_spec 20 (String.length t)); [by eexists|].
  destruct Hbad as [->|[?|[?|Hc]]]; [done|lia|lia|].
  rewrite Hc, andb_false_r. by eexists.
Qed.

Lemma validateUsername_accepts s :
  Client.validateUsername s = None ↔ ¬ lexically_invalid s.
Proof.
  split.
  - intros Hnone Hbad. destruct (validateUsername_rejects s Hbad) as [e He]. congruence.
  - unfold lexically_invalid, Client.validateUsername, JS.testIdPlus. cbv zeta.
    generalize (JS.trim s). intros t Hok.
    destruct (JS.truthy t) eqn:Ht; cbn [negb].
    2:{ destruct Hok. left. by apply truthy_false. }
    destruct (Nat.ltb_spec (String.length t) 2); [destruct Hok; auto|].
    destruct (Nat.ltb_spec 20 (String.length t)); [destruct Hok; auto|].
    destruct (JS.allChars JS.idChar t) eqn:Hc; [|destruct Hok; auto].
    rewrite andb_true_r. by destruct (Nat.leb_spec 1 (String.length t)); [|lia].
Qed.

(** C4 (as stated, refuted): the server binds the one-character name
    "a" to the session that claims it. *)
Lemma C4_counterexample :
  let w := connection 1 Scenario.start in
  let w' := handle 1 (on_select_username "a") w in
  lexically_invalid "a" ∧ holds 1 "a" w' ∧ activeUsernames w' = {["a"]}
  ∧ ev <$> emitted w w' = [username_accepted "a"; user_joined "a"].
Proof.
  split; [|by vm_compute].
  right; left. vm_compute. lia.
Qed.

(** C4 (amended): a name that is empty after trimming, shorter than 2
    or longer than 20 characters, or has a character outside
    [[a-zA-Z0-9_-]] is refused by the client's form with a validation
    message and no claim is sent.  The server's handler does not look at
    the form of the name: a claim of such a name that reaches it is
    answered with the already-taken event if the name is in the set of
    claimed names, and is accepted and bound otherwise. *)
Theorem C4_validation_is_client_side s :
  lexically_invalid s →
  (∃ problem, Client.handleUsernameSubmit s = Client.showUsernameError problem)
  ∧ ∀ w sid, is_Some (sockets w !! sid) →
      let w' := handle sid (on_select_username s) w in
      if decide (s ∈ activeUsernames w)
      then emitted w w' = [Delivery {[sid]}
             (username_taken "Username is already taken. Please choose another.")]
           ∧ activeUsernames w' = activeUsernames w
           ∧ sockets w' = sockets w
      else emitted w w' = [Delivery {[sid]} (username_accepted s);
                           Delivery (dom (sockets w) ∖ {[sid]}) (user_joined s)]
           ∧ activeUsernames w' = {[s]} ∪ activeUsernames w
           ∧ holds sid s w'.
Proof.
  intros Hbad. split.
  - unfold Client.handleUsernameSubmit.
    destruct (validateUsername_rejects s Hbad) as [problem ->]. by eexists.
  - intros w sid Hlive. cbv zeta. case_decide as Hin.
    + rewrite handleUsernameSelection_taken by done.
      unfold emitted. cbn [push_outbox outbox]. by rewrite drop_app_length.
    + destruct (select_free_sessions w sid s Hin Hlive) as [Ha Hu].
      split; [|split; [done|]].
      * rewrite handleUsernameSelection_free by done.
        unfold emitted. cbn [push_outbox set_sockets set_activeUsernames outbox].
        rewrite <- app_assoc. by rewrite drop_app_length.
      * unfold holds. rewrite Hu. by rewrite decide_True.
Qed.

Lemma C4_validation_is_client_side_witness :
  (∃ problem, Client.handleUsernameSubmit "a" = Client.showUsernameError problem)
  ∧ ∀ w sid, is_Some (sockets w !! sid) →
      let w' := handle sid (on_select_username "a") w in
      if decide ("a" ∈ activeUsernames w)
      then emitted w w' = [Delivery {[sid]}
             (username_taken "Username is already taken. Please choose another.")]
           ∧ activeUsernames w' = activeUsernames w
           ∧ sockets w' = sockets w
      else emitted w w' = [Delivery {[sid]} (username_accepted "a");
                           Delivery (dom (sockets w) ∖ {[sid]}) (user_joined "a")]
           ∧ activeUsernames w' = {["a"]} ∪ activeUsernames w
           ∧ holds sid "a" w'.
Proof.
  apply (C4_validation_is_client_side "a").
  right; left. vm_compute. lia.
Defined.

Example form_refuses_short_name :
  Client.handleUsernameSubmit " a " =
  Client.showUsernameError "Username must be at least 2 characters long".
Proof. reflexivity. Qed.

Example form_refuses_blank :
  Client.handleUsernameSubmit "   " = Client.showUsernameError "Username cannot be empty".
Proof. reflexivity. Qed.

Example form_refuses_symbols :
  Client.handleUsernameSubmit "bad name!" =
  Client.showUsernameError
    "Username can only contain letters, numbers, underscores, and hyphens".
Proof. reflexivity. Qed.

Example form_sends_trimmed_name :
  Client.handleUsernameSubmit "  alice_01 " = Client.emit_select_username "alice_01".
Proof. reflexivity. Qed.

(** ** Room messages from non-members *)

(** C9 (as stated, refuted): bob is not a member of team1 and sends it
    a message whose body is blank; nothing is sent back to him. *)
Lemma C9_counterexample :
  let w := Scenario.team1 in
  let w' := handle 2 (on_group_message (Some "team1") (Some "   ") "10:05") w in
  holds 2 "bob" w
  ∧ Redis.smembers GROUPS_SET (store w) = {["team1"]}
  ∧ Redis.smembers (members "team1") (store w) = {["alice"]}
  ∧ emitted w w' = [].
Proof. by vm_compute. Qed.

(** C9 (amended): a room message from an identified user who is not in
    the room's membership set never changes the store and is never
    broadcast.  When the room id is well-formed and the body is not
    empty after trimming, the sender alone gets an error event, which
    is the not-a-member error unless the membership lookup itself fails;
    otherwise the request is dropped without any event. *)
Theorem C9_non_member_message w sid u g body t r :
  holds sid u w → JS.truthy u = true → room_of g = r →
  u ∉ Redis.smembers (members r) (store w) →
  let w' := handle sid (on_group_message g body t) w in
  store w' = store w
  ∧ emitted w w' =
    if isValidGroupId r && JS.truthy (JS.trim (JS.or_else body ""))
    then [Delivery {[sid]} (error
            match faults w with
            | true :: _ => "Failed to send message. Please try again."
            | _ => "You are not a member of this group."
            end)]
    else [].
Proof.
  intros Hu Ht Hr Hnot w'. subst w'.
  destruct w as [au ss st fs ck ob]. user_in Hu. cbn [store faults] in *.
  unfold room_of in Hr. unfold emitted.
  destruct (isValidGroupId r) eqn:Hv, (JS.truthy (JS.trim (JS.or_else body ""))) eqn:Hb;
    cbn [andb];
    destruct fs as [|[|] fs]; exec; rewrite Hu; cbn [not_username default];
    rewrite Ht, Hr, Hv, ?Hb; cbn [negb orb]; unfold Redis.sismember;
    rewrite ?bool_decide_eq_false_2 by done; cbn [negb];
    rewrite ?drop_app_length, ?drop_all; done.
Qed.

Lemma C9_non_member_message_witness :
  let w := Scenario.team1 in
  let w' := handle 2 (on_group_message (Some "team1") (Some "hello") "10:05") w in
  store w' = store w
  ∧ emitted w w' =
    if isValidGroupId "team1" && JS.truthy (JS.trim (JS.or_else (Some "hello") ""))
    then [Delivery {[2]} (error
            match faults w with
            | true :: _ => "Failed to send message. Please try again."
            | _ => "You are not a member of this group."
            end)]
    else [].
Proof.
  apply (C9_non_member_message Scenario.team1 2 "bob" (Some "team1") (Some "hello") "10:05" "team1").
  - reflexivity.
  - reflexivity.
  - reflexivity.
  - replace (Redis.smembers (members "team1") (store Scenario.team1))
      with ({["alice"]} : gset string) by (vm_compute; reflexivity).
    intros Hin%elem_of_singleton. discriminate.
Defined.

Example bob_after_leaving_is_not_a_member :
  let w := handle 2 (on_leave_group (Some "team1"))
             (handle 2 (on_join_group (Some "team1")) Scenario.team1) in
  ev <$> emitted w (handle 2 (on_group_message (Some "team1") (Some "hi") "10:06") w) =
  [error "You are not a member of this group."].
Proof. vm_compute. reflexivity. Qed.

(** ** How many events answer a request *)


Lemma received_one sid w w' d :
  outbox w' = outbox w ++ [d] →
  received sid w w' = if decide (sid ∈ recipients d) then 1 else 0.
Proof.
  intros Hout. unfold received, emitted. rewrite Hout, drop_app_length.
  rewrite filter_cons, filter_nil. by case_decide.
Qed.

Lemma received_none sid w w' :
  outbox w' = outbox w → received sid w w' = 0.
Proof. intros Hout. unfold received, emitted. by rewrite Hout, drop_all. Qed.









(** The claim as stated fails in the other direction too: alice
    deletes her room from the socket that created it and the store
    rejects the second removal command.  The broadcast of the deletion
    has reached her by then, and the failure follows. *)
Example interrupted_delete_is_answered_twice :
  let w := set_faults [false; false; false; true] Scenario.team1 in
  let req := on_delete_group (Some "team1") in
  ev <$> emitted w (handle 1 req w) =
    [group_deleted "team1" "alice"; error "Failed to delete group. Please try again."]
  ∧ received 1 w (handle 1 req w) = 2
  ∧ two_replies 1 req w = true.
Proof. by vm_compute. Qed.

(** A rejected command is reported to the requester, once. *)
Example rejected_command_is_reported :
  let w := set_faults [true] Scenario.team1 in
  emitted w (handle 1 (on_group_message (Some "team1") (Some "hi") "10:05") w) =
    [Delivery {[1]} (error "Failed to send message. Please try again.")].
Proof. by vm_compute. Qed.

(** Events sent without a payload: nothing comes back, except that a
    socket without a user name is told to pick one before its lobby
    message is looked at. *)
Example no_payload_is_not_answered :
  let w := connection 3 Scenario.team1 in
  emitted w (handle 1 on_select_username_undefined w) = []
  ∧ emitted w (handle 1 on_message_undefined w) = []
  ∧ emitted w (handle 1 on_load_more_messages_undefined w) = []
  ∧ emitted w (handle 3 on_message_undefined w) =
      [Delivery {[3]} (error "Please select a username before sending messages.")].
Proof. by vm_compute. Qed.

Example member_in_room_gets_the_broadcast :
  let w := Scenario.team1 in
  received 1 w (handle 1 (on_group_message (Some "team1") (Some "hi") "10:05") w) = 1.
Proof. vm_compute. reflexivity. Qed.

Example invalid_room_id_is_reported_on_join_only :
  let w := Scenario.team1 in
  ev <$> emitted w (handle 2 (on_join_group (Some "no such room!")) w) =
    [error "Invalid group ID."]
  ∧ emitted w (handle 2 (on_leave_group (Some "no such room!")) w) = []
  ∧ emitted w (handle 2 (on_clear_group_history (Some "no such room!")) w) = [].
Proof. by vm_compute. Qed.

(** alice comes back on a new socket: she is still a member, but the
    broadcast of her own message does not reach her. *)
Example member_outside_channel_gets_nothing :
  let w := handle 3 (on_select_username "alice")
             (connection 3 (handle 1 on_disconnect Scenario.team1)) in
  let w' := handle 3 (on_group_message (Some "team1") (Some "back") "10:09") w in
  Redis.llist (messages "team1") (store w') =
    [MessageData (Some "team1") "alice" "back" "10:09"]
  ∧ received 3 w w' = 0.
Proof. by vm_compute. Qed.
